(** * kv-repl-barebones: the transactional key value store

    A shallow embedding of [storage/storage.go] and the properties of its
    transaction engine: read resolution, write and remove routing, commit,
    discard and begin; and of the front end in [repl/repl.go], from the
    fields of a line to what one turn of the loop prints.

    Representation choices.
    - [kvStore] is a Go [map[string]string]: a [gmap string string].
    - [operation] and [tx] are the Go structs, field for field.  A [*tx] is
      embedded as the frame it points to, and the nil pointer as [None]: every
      frame is referenced by exactly one pointer (the [currTx] field of the
      store, or the [parent] field of the single frame begun on top of it), so
      an assignment through [s.currTx.parent] is seen by nobody but the chain
      hanging from [s.currTx].
    - a method with receiver [*Store] is a computation in a small state monad
      over [Store]; a Go result [(string, error)] is a pair whose second
      component is [None] for a nil error. *)

From stdpp Require Import gmap strings list fin_maps.
From Stdlib Require Import String List.

Local Open Scope string_scope.
Local Open Scope list_scope.

Module storage.

(** ** Commands and errors *)

Definition Write : string := "write".
Definition Read : string := "read".
Definition Remove : string := "remove".
Definition Begin : string := "begin".
Definition Commit : string := "commit".
Definition Discard : string := "discard".

(** The three sentinel errors.  [fmt.Errorf("%w: %s", e, x)] wraps the
    sentinel [e] together with the offending string [x], which the
    constructors carry as their argument. *)
Inductive error : Type :=
  | ErrNoCurrentTransation
  | ErrKeyNotFound (k : string)
  | ErrUnsupportedCommand (command : string).

(** ** Data *)

Record operation : Type := mkOperation {
  key : string;
  value : string;
  isWrite : bool
}.

(** The recursion of [tx] goes through [option]; its induction principle is
    stated by hand below ([tx_chain_ind]). *)
Local Unset Elimination Schemes.
Inductive tx : Type := Tx {
  parent : option tx;
  operations : list operation
}.
Local Set Elimination Schemes.

Abbreviation kvStore := (gmap string string).

Record Store : Type := mkStore {
  kv : kvStore;
  currTx : tx
}.

Definition isRoot (t : tx) : bool :=
  match parent t with
  | None => true
  | Some _ => false
  end.

Definition hasOperations (t : tx) : bool :=
  if decide (0 < length (operations t)) then true else false.

(** [kv.modify(op)] *)
Definition kvStore_modify (op : operation) (m : kvStore) : kvStore :=
  match isWrite op with
  | true => <[key op := value op]> m
  | false => delete (key op) m
  end.

(** ** The state monad of the [*Store] methods *)

Definition M (A : Type) : Type := Store -> A * Store.

Definition ret {A} (a : A) : M A := fun s => (a, s).
Definition bind {A B} (c : M A) (f : A -> M B) : M B :=
  fun s => let (a, s') := c s in f a s'.
Definition get : M Store := fun s => (s, s).
Definition put (s : Store) : M unit := fun _ => (tt, s).

Declare Scope store_scope.
Delimit Scope store_scope with store.
Notation "x <- c1 ;; c2" := (bind c1 (fun x => c2))
  (at level 100, c1 at next level, right associativity) : store_scope.
Notation "c1 ;; c2" := (bind c1 (fun _ => c2))
  (at level 100, right associativity) : store_scope.
Local Open Scope store_scope.

(** ** Methods of [Store] *)

(** [s.modify(op)]: at the root the operation goes to the map, otherwise it
    is appended to the operations of the current transaction. *)
Definition Store_modify (op : operation) : M unit :=
  s <- get ;;
  if isRoot (currTx s)
  then put {| kv := kvStore_modify op (kv s); currTx := currTx s |}
  else put {| kv := kv s;
              currTx := {| parent := parent (currTx s);
                           operations := operations (currTx s) ++ [op] |} |}.

Definition NewStore : Store :=
  {| kv := ∅; currTx := {| parent := None; operations := [] |} |}.

Definition write (k v : string) : M unit :=
  Store_modify {| key := k; value := v; isWrite := true |}.

(** The inner loop of [read]:
    [for i := len(ops) - 1; i >= 0; i-- { if key == ops[i].key { ... } }].
    [scan_from k ops n] runs it from index [n - 1] down to [0] and yields the
    entry at which the loop body returns.  The loop only reaches indices
    below [len(ops)], where [ops !! i] is defined. *)
Fixpoint scan_from (k : string) (ops : list operation) (n : nat)
  : option operation :=
  match n with
  | 0 => None
  | S i =>
      match ops !! i with
      | Some op => if String.eqb k (key op) then Some op else scan_from k ops i
      | None => None
      end
  end.

Definition scan (k : string) (ops : list operation) : option operation :=
  scan_from k ops (length ops).

(** What the loop body returns at a matching entry: the error when the entry
    marks a removal, its value otherwise. *)
Definition found (k : string) (op : operation) : string * option error :=
  match isWrite op with
  | false => ("", Some (ErrKeyNotFound k))
  | true => (value op, None)
  end.

(** The outer loop of [read], [for !currentTx.isRoot() { ... }].  The local
    variable [currentTx] climbs the [parent] links; the inner loop indexes
    [s.currTx.operations], the operations of the current transaction of the
    store, at every turn.  [None] means that the loop ended without
    returning. *)
Fixpoint read_loop (s : Store) (k : string) (currentTx : tx)
  : option (string * option error) :=
  match currentTx with
  | Tx None _ => None
  | Tx (Some p) _ =>
      match scan k (operations (currTx s)) with
      | Some op => Some (found k op)
      | None => read_loop s k p
      end
  end.

Definition read (k : string) : M (string * option error) :=
  s <- get ;;
  match read_loop s k (currTx s) with
  | Some r => ret r
  | None =>
      match kv s !! k with
      | Some v => ret (v, None)
      | None => ret ("", Some (ErrKeyNotFound k))
      end
  end.

Definition remove (k : string) : M (option error) :=
  r <- read k ;;
  match snd r with
  | Some _ => ret (Some (ErrKeyNotFound k))
  | None =>
      Store_modify {| key := k; value := ""; isWrite := false |} ;;
      ret None
  end.

(** Step 1 of [commit]: every operation of the committed transaction is
    copied and appended to the operations of the parent. *)
Definition append_copies (ops parent_ops : list operation) : list operation :=
  fold_left
    (fun acc op =>
       acc ++ [{| key := key op; value := value op; isWrite := isWrite op |}])
    ops parent_ops.

(** Step 3 of [commit]: [for _, op := range ops { s.kv.modify(op) }]. *)
Definition apply_all (ops : list operation) (m : kvStore) : kvStore :=
  fold_left (fun acc op => kvStore_modify op acc) ops m.

Definition commit : M (option error) :=
  s <- get ;;
  match parent (currTx s) with
  | None => ret (Some ErrNoCurrentTransation)
  | Some p =>
      let p1 := {| parent := parent p;
                   operations :=
                     append_copies (operations (currTx s)) (operations p) |} in
      put {| kv := kv s; currTx := p1 |} ;;
      s1 <- get ;;
      (if isRoot (currTx s1) && hasOperations (currTx s1)
       then put {| kv := apply_all (operations (currTx s1)) (kv s1);
                   currTx := {| parent := parent (currTx s1);
                                operations := [] |} |}
       else ret tt) ;;
      ret None
  end.

Definition discard : M unit :=
  s <- get ;;
  match parent (currTx s) with
  | None => ret tt
  | Some p => put {| kv := kv s; currTx := p |}
  end.

Definition begin : M unit :=
  s <- get ;;
  put {| kv := kv s;
         currTx := {| parent := Some (currTx s); operations := [] |} |}.

Definition Process (command k v : string) : M (string * option error) :=
  if String.eqb command Write then write k v ;; ret ("", None)
  else if String.eqb command Read then read k
  else if String.eqb command Remove then e <- remove k ;; ret ("", e)
  else if String.eqb command Begin then begin ;; ret ("", None)
  else if String.eqb command Discard then discard ;; ret ("", None)
  else if String.eqb command Commit then e <- commit ;; ret ("", e)
  else ret ("", Some (ErrUnsupportedCommand command)).

End storage.

Import storage.
Local Open Scope store_scope.

(** * Frame chains *)

(** Induction along the [parent] links, from the root up. *)
Fixpoint tx_chain_ind (P : tx -> Prop)
    (Hroot : forall ops, P (Tx None ops))
    (Hbegin : forall p ops, P p -> P (Tx (Some p) ops))
    (t : tx) : P t :=
  match t with
  | Tx None ops => Hroot ops
  | Tx (Some p) ops => Hbegin p ops (tx_chain_ind P Hroot Hbegin p)
  end.

(** Number of transactions open above the root. *)
Fixpoint depth (t : tx) : nat :=
  match t with
  | Tx None _ => 0
  | Tx (Some p) _ => S (depth p)
  end.

(** The root of the chain: the transaction created by [NewStore]. *)
Fixpoint base (t : tx) : tx :=
  match t with
  | Tx None _ => t
  | Tx (Some p) _ => base p
  end.

(** The last operation on [k] in a chronological log. *)
Fixpoint last_op (k : string) (ops : list operation) : option operation :=
  match ops with
  | [] => None
  | op :: rest =>
      match last_op k rest with
      | Some o => Some o
      | None => if String.eqb k (key op) then Some op else None
      end
  end.

(** What a map holds for [k] once the log [ops] has been replayed on it. *)
Definition replayed (k : string) (ops : list operation) (m : kvStore)
  : option string :=
  match last_op k ops with
  | Some op => if isWrite op then Some (value op) else None
  | None => m !! k
  end.

(** The answer of the map alone. *)
Definition kv_answer (k : string) (m : kvStore) : string * option error :=
  match m !! k with
  | Some v => (v, None)
  | None => ("", Some (ErrKeyNotFound k))
  end.

(** The operation [remove] hands to [modify]. *)
Definition tombstone (k : string) : operation :=
  {| key := k; value := ""; isWrite := false |}.

(** What [read] computes ([read_eq] below): the operations of the current
    transaction decide, unless it is the root or they do not mention the key;
    then the map does. *)
Definition read_answer (k : string) (s : Store) : string * option error :=
  if isRoot (currTx s) then kv_answer k (kv s)
  else match last_op k (operations (currTx s)) with
       | Some op => found k op
       | None => kv_answer k (kv s)
       end.

(** Running a list of commands through [Process]. *)
Definition command : Type := string * string * string.

Definition run1 (c : command) : M (string * option error) :=
  let '(name, k, v) := c in Process name k v.

Fixpoint exec (cs : list command) (s : Store) : Store :=
  match cs with
  | [] => s
  | c :: cs' => exec cs' (snd (run1 c s))
  end.

Fixpoint outputs (cs : list command) (s : Store)
  : list (string * option error) :=
  match cs with
  | [] => []
  | c :: cs' => fst (run1 c s) :: outputs cs' (snd (run1 c s))
  end.

(** The states a client can observe: those [Process] leads to from
    [NewStore]. *)
Inductive reachable : Store -> Prop :=
  | reachable_new : reachable NewStore
  | reachable_step s name k v :
      reachable s -> reachable (snd (Process name k v s)).

(** The view of a command name that the [switch] of [Process] takes. *)
Inductive dispatch (name : string) : Prop :=
  | is_write : name = Write -> dispatch name
  | is_read : name = Read -> dispatch name
  | is_remove : name = Remove -> dispatch name
  | is_begin : name = Begin -> dispatch name
  | is_discard : name = Discard -> dispatch name
  | is_commit : name = Commit -> dispatch name
  | is_unsupported :
      (forall k v s,
          Process name k v s = (("", Some (ErrUnsupportedCommand name)), s)) ->
      dispatch name.

(** ** States and command lists used below *)

(** A transaction with a pending write, and a second one begun on top. *)
Definition nested_commands : list command :=
  [(Begin, "", ""); (Write, "a", "x"); (Begin, "", "")].

Definition nested_store : Store := exec nested_commands NewStore.

(** A committed key, removed in a transaction, then a second transaction. *)
Definition removed_commands : list command :=
  [(Write, "a", "A"); (Begin, "", ""); (Remove, "a", ""); (Begin, "", "")].

Definition removed_store : Store := exec removed_commands NewStore.

(** One open transaction holding one write. *)
Definition pending_store : Store :=
  exec [(Begin, "", ""); (Write, "a", "hi")] NewStore.

(** ** Read resolution as the documentation describes it

    Every visited transaction is scanned in its own operations, most recent
    first, from the current one up to but excluding the root; the map is the
    fallback. *)
Fixpoint resolve_spec (k : string) (t : tx) : option (string * option error) :=
  match t with
  | Tx None _ => None
  | Tx (Some p) ops =>
      match last_op k ops with
      | Some op => Some (found k op)
      | None => resolve_spec k p
      end
  end.

Definition read_spec (k : string) (s : Store) : string * option error :=
  match resolve_spec k (currTx s) with
  | Some r => r
  | None => kv_answer k (kv s)
  end.

(** ** Whole chains and command lists *)

(** Every operation waiting in the chain, outermost transaction first, each
    log in its own order. *)
Fixpoint pending (t : tx) : list operation :=
  match t with
  | Tx None ops => ops
  | Tx (Some p) ops => pending p ++ ops
  end.

(** The command names of the [switch] of [Process], in its order. *)
Definition vocabulary : list string :=
  [Write; Read; Remove; Begin; Discard; Commit].

(** Depth after a command run at depth [d]. *)
Definition depth_after (name : string) (d : nat) : nat :=
  if String.eqb name Begin then S d
  else if String.eqb name Commit || String.eqb name Discard then Nat.pred d
  else d.

(** Commands that neither open nor close a transaction. *)
Definition keeps_stack (c : command) : bool :=
  let '(name, _, _) := c in
  negb (String.eqb name Begin || String.eqb name Commit
        || String.eqb name Discard).

(** As many commits as there are open transactions. *)
Definition commit_all (s : Store) : list command :=
  replicate (depth (currTx s)) (Commit, "", "").

(** Two transactions, the outer one writing [a] and [b], the inner one
    overwriting [a] and removing [b]. *)
Definition stacked_store : Store :=
  exec [(Write, "b", "old"); (Begin, "", ""); (Write, "a", "1");
        (Begin, "", ""); (Write, "a", "2"); (Remove, "b", "")] NewStore.

(** The [switch] of [Process] again, this time remembering in the default
    case that the name is none of the six. *)
Inductive command_view (name : string) : Prop :=
  | view_write : name = Write -> command_view name
  | view_read : name = Read -> command_view name
  | view_remove : name = Remove -> command_view name
  | view_begin : name = Begin -> command_view name
  | view_discard : name = Discard -> command_view name
  | view_commit : name = Commit -> command_view name
  | view_default :
      ~ In name vocabulary ->
      (forall k v s,
          Process name k v s = (("", Some (ErrUnsupportedCommand name)), s)) ->
      command_view name.

(** * The front end, [repl/repl.go] *)

Module repl.

Definition exit : string := "exit".

(** [validCommands]: the number of arguments each command takes. *)
Definition validCommands : gmap string Z :=
  list_to_map
    [(Write, 2%Z); (Read, 1%Z); (Remove, 1%Z); (Begin, 0%Z); (Commit, 0%Z);
     (Discard, 0%Z); (exit, 0%Z)].

(** The errors of the front end; the wrapped ones carry what [fmt.Errorf]
    prints after the sentinel: the command name (printed in upper case for
    [errInvalidNumArguments]) and the required number of arguments. *)
Inductive parse_error : Type :=
  | errUnsupportedCommand (name : string)
  | errNoCommand
  | errInvalidNumArguments (name : string) (required : Z).

(** [fields[i]], read where the source has checked that [i] is in range. *)
Definition field (fields : list string) (i : nat) : string :=
  default "" (fields !! i).

(** [parse], from the line after
    [fields := strings.Fields(strings.ToLower(in))] on: the argument is the
    list of fields that the two library calls produce. *)
Definition parse (fields : list string)
  : string * string * string * option parse_error :=
  if decide (length fields = 0) then ("", "", "", Some errNoCommand)
  else
    match validCommands !! field fields 0 with
    | None => ("", "", "", Some (errUnsupportedCommand (field fields 0)))
    | Some numParams =>
        if decide (numParams <> Z.of_nat (length fields) - 1)%Z
        then ("", "", "",
              Some (errInvalidNumArguments (field fields 0) numParams))
        else
          let command := field fields 0 in
          match length fields with
          | 1 => (command, "", "", None)
          | 2 => (command, field fields 1, "", None)
          | 3 => (command, field fields 1, field fields 2, None)
          | _ => (command, "", "", None)
          end
    end.

(** What one turn of the loop does to the outside world. *)
Inductive event : Type :=
  | Prompt
  | Stderr_parse (e : parse_error)
  | Stderr_store (e : error)
  | Stdout (v : string)
  | Exit (code : Z).

(** [next], given the fields of the line that [r.read()] returned: the
    events of the turn in their order, and the store afterwards.  Nothing
    follows [Exit]: [os.Exit] ends the process. *)
Definition next (fields : list string) (s : Store) : list event * Store :=
  let '(cmd, k, v, err) := parse fields in
  match err with
  | Some e => ([Prompt; Stderr_parse e], s)
  | None =>
      if String.eqb cmd exit then ([Prompt; Exit 0], s)
      else
        let '(out, err', s') := Process cmd k v s in
        match err' with
        | Some e => ([Prompt; Stderr_store e], s')
        | None =>
            if decide (0 < String.length out)
            then ([Prompt; Stdout out], s')
            else ([Prompt], s')
        end
  end.

End repl.

(** * Basic facts *)

Section Chains.

Lemma isRoot_depth t : isRoot t = true <-> depth t = 0.
Proof. destruct t as [[p|] ops]; cbn; split; congruence. Qed.

Lemma isRoot_false_depth t : isRoot t = false <-> 1 <= depth t.
Proof. destruct t as [[p|] ops]; cbn; split; (congruence || lia). Qed.

Lemma base_root t : isRoot t = true -> base t = t.
Proof. destruct t as [[p|] ops]; cbn; congruence. Qed.

Lemma base_parent t p : parent t = Some p -> base t = base p.
Proof. destruct t as [[q|] ops]; cbn; congruence. Qed.

Lemma base_is_root t : parent (base t) = None.
Proof. induction t using tx_chain_ind; cbn; auto. Qed.

End Chains.

Section Logs.

Implicit Types (k : string) (op : operation) (ops : list operation).

Lemma scan_from_app k ops tl n :
  n <= length ops -> scan_from k (ops ++ tl) n = scan_from k ops n.
Proof.
  induction n as [|i IH]; intros Hn; cbn; [reflexivity|].
  rewrite lookup_app_l by lia.
  destruct (ops !! i) as [op|]; [|reflexivity].
  destruct (String.eqb k (key op)); [reflexivity|].
  apply IH. lia.
Qed.

Lemma scan_snoc k ops op :
  scan k (ops ++ [op]) =
  if String.eqb k (key op) then Some op else scan k ops.
Proof.
  unfold scan. rewrite length_app, Nat.add_1_r. cbn.
  rewrite list_lookup_middle by reflexivity.
  destruct (String.eqb k (key op)); [reflexivity|].
  apply scan_from_app. lia.
Qed.

Lemma last_op_snoc k ops op :
  last_op k (ops ++ [op]) =
  if String.eqb k (key op) then Some op else last_op k ops.
Proof.
  induction ops as [|o ops IH]; cbn.
  - reflexivity.
  - rewrite IH. destruct (String.eqb k (key op)); reflexivity.
Qed.

(** The downward loop finds the last operation on the key. *)
Lemma scan_last_op k ops : scan k ops = last_op k ops.
Proof.
  induction ops as [|op ops IH] using rev_ind.
  - reflexivity.
  - rewrite scan_snoc, last_op_snoc, IH. reflexivity.
Qed.

Lemma append_copies_app ops parent_ops :
  append_copies ops parent_ops = parent_ops ++ ops.
Proof.
  unfold append_copies. revert parent_ops.
  induction ops as [|[k v w] ops IH]; intros parent_ops; cbn.
  - rewrite app_nil_r. reflexivity.
  - rewrite IH, <- app_assoc. reflexivity.
Qed.

Lemma apply_all_snoc ops op (m : kvStore) :
  apply_all (ops ++ [op]) m = kvStore_modify op (apply_all ops m).
Proof. unfold apply_all. rewrite fold_left_app. reflexivity. Qed.

(** Replaying a log leaves, for each key, the effect of the last operation
    on that key. *)
Lemma apply_all_lookup k ops (m : kvStore) :
  apply_all ops m !! k = replayed k ops m.
Proof.
  unfold replayed.
  induction ops as [|op ops IH] using rev_ind; [reflexivity|].
  rewrite apply_all_snoc, last_op_snoc. unfold kvStore_modify.
  destruct (String.eqb k (key op)) eqn:E.
  - apply String.eqb_eq in E. subst k.
    destruct (isWrite op).
    + apply lookup_insert_eq.
    + apply lookup_delete_eq.
  - apply String.eqb_neq in E.
    destruct (isWrite op).
    + rewrite lookup_insert_ne by congruence. exact IH.
    + rewrite lookup_delete_ne by congruence. exact IH.
Qed.

End Logs.

(** * The methods, one equation each *)

Section Methods.

Implicit Types (s : Store) (k v : string) (t p : tx).

Lemma Store_modify_root op s :
  isRoot (currTx s) = true ->
  Store_modify op s =
  (tt, {| kv := kvStore_modify op (kv s); currTx := currTx s |}).
Proof. intros H. unfold Store_modify, bind, get. rewrite H. reflexivity. Qed.

Lemma Store_modify_nested op s :
  isRoot (currTx s) = false ->
  Store_modify op s =
  (tt, {| kv := kv s;
          currTx := Tx (parent (currTx s)) (operations (currTx s) ++ [op]) |}).
Proof. intros H. unfold Store_modify, bind, get. rewrite H. reflexivity. Qed.

Lemma read_loop_unmatched s k t :
  scan k (operations (currTx s)) = None -> read_loop s k t = None.
Proof.
  intros H. induction t as [ops|p ops IH] using tx_chain_ind; cbn.
  - reflexivity.
  - rewrite H. exact IH.
Qed.

Lemma read_loop_matched s k t op :
  isRoot t = false -> scan k (operations (currTx s)) = Some op ->
  read_loop s k t = Some (found k op).
Proof.
  destruct t as [[p|] ops]; cbn; [|discriminate].
  intros _ ->. reflexivity.
Qed.

Lemma read_loop_root s k t : isRoot t = true -> read_loop s k t = None.
Proof. destruct t as [[p|] ops]; cbn; [discriminate|reflexivity]. Qed.

Lemma read_eq k s : read k s = (read_answer k s, s).
Proof.
  unfold read, read_answer, bind, get, kv_answer.
  destruct (isRoot (currTx s)) eqn:R.
  - rewrite read_loop_root by exact R.
    destruct (kv s !! k); reflexivity.
  - rewrite <- scan_last_op.
    destruct (scan k (operations (currTx s))) as [op|] eqn:E.
    + rewrite (read_loop_matched _ _ _ op) by assumption. reflexivity.
    + rewrite read_loop_unmatched by exact E.
      destruct (kv s !! k); reflexivity.
Qed.

Lemma remove_eq k s :
  remove k s =
  match snd (read_answer k s) with
  | Some _ => (Some (ErrKeyNotFound k), s)
  | None => (None, snd (Store_modify (tombstone k) s))
  end.
Proof.
  unfold remove, bind at 1. rewrite read_eq.
  destruct (snd (read_answer k s)); [reflexivity|].
  unfold bind. fold (tombstone k).
  destruct (Store_modify (tombstone k) s). reflexivity.
Qed.

Lemma commit_root s :
  parent (currTx s) = None -> commit s = (Some ErrNoCurrentTransation, s).
Proof. intros H. unfold commit, bind, get. rewrite H. reflexivity. Qed.

Lemma commit_nested s p :
  parent (currTx s) = Some p ->
  commit s =
  (None,
   let merged := operations p ++ operations (currTx s) in
   if isRoot p && hasOperations (Tx (parent p) merged)
   then {| kv := apply_all merged (kv s); currTx := Tx (parent p) [] |}
   else {| kv := kv s; currTx := Tx (parent p) merged |}).
Proof.
  intros H. unfold commit, bind, get, put. rewrite H. cbn.
  rewrite append_copies_app.
  replace (isRoot (Tx (parent p) (operations p ++ operations (currTx s))))
    with (isRoot p) by reflexivity.
  destruct (isRoot p && _); reflexivity.
Qed.

Lemma hasOperations_true t : hasOperations t = true <-> operations t <> [].
Proof.
  unfold hasOperations. destruct (operations t); cbn; split;
    (congruence || (case_decide; (congruence || lia))).
Qed.

Lemma discard_eq s :
  discard s =
  (tt, match parent (currTx s) with
       | None => s
       | Some p => {| kv := kv s; currTx := p |}
       end).
Proof. unfold discard, bind, get. destruct (parent (currTx s)); reflexivity. Qed.

Lemma begin_eq s :
  begin s = (tt, {| kv := kv s; currTx := Tx (Some (currTx s)) [] |}).
Proof. reflexivity. Qed.

Lemma reachable_exec cs s : reachable s -> reachable (exec cs s).
Proof.
  revert s. induction cs as [|[[name k] v] cs IH]; intros s H; cbn.
  - exact H.
  - apply IH. apply reachable_step. exact H.
Qed.

End Methods.

(** * [Process], command by command *)

Section Dispatch.

Implicit Types (s : Store) (name k v : string).

Lemma Process_Write k v s :
  Process Write k v s = (("", None), snd (write k v s)).
Proof.
  unfold Process, bind. cbn [String.eqb Ascii.eqb Bool.eqb Write].
  destruct (write k v s). reflexivity.
Qed.

Lemma Process_Read k v s : Process Read k v s = read k s.
Proof. reflexivity. Qed.

Lemma Process_Remove k v s :
  Process Remove k v s = (("", fst (remove k s)), snd (remove k s)).
Proof.
  unfold Process, bind. cbn [String.eqb Ascii.eqb Bool.eqb Remove Write Read].
  destruct (remove k s). reflexivity.
Qed.

Lemma Process_Begin k v s :
  Process Begin k v s = (("", None), snd (begin s)).
Proof. reflexivity. Qed.

Lemma Process_Discard k v s :
  Process Discard k v s = (("", None), snd (discard s)).
Proof.
  unfold Process, bind.
  cbn [String.eqb Ascii.eqb Bool.eqb Discard Begin Remove Write Read].
  destruct (discard s). reflexivity.
Qed.

Lemma Process_Commit k v s :
  Process Commit k v s = (("", fst (commit s)), snd (commit s)).
Proof.
  unfold Process, bind.
  cbn [String.eqb Ascii.eqb Bool.eqb Commit Discard Begin Remove Write Read].
  destruct (commit s). reflexivity.
Qed.

Lemma dispatch_total name : dispatch name.
Proof.
  destruct (String.eqb name Write) eqn:E1;
    [apply is_write, String.eqb_eq, E1|].
  destruct (String.eqb name Read) eqn:E2;
    [apply is_read, String.eqb_eq, E2|].
  destruct (String.eqb name Remove) eqn:E3;
    [apply is_remove, String.eqb_eq, E3|].
  destruct (String.eqb name Begin) eqn:E4;
    [apply is_begin, String.eqb_eq, E4|].
  destruct (String.eqb name Discard) eqn:E5;
    [apply is_discard, String.eqb_eq, E5|].
  destruct (String.eqb name Commit) eqn:E6;
    [apply is_commit, String.eqb_eq, E6|].
  apply is_unsupported. intros k v s.
  unfold Process. rewrite E1, E2, E3, E4, E5, E6. reflexivity.
Qed.

End Dispatch.

(** Case analysis on the command of a [Process] call, each supported command
    rewritten to the method it runs. *)
Ltac by_command name :=
  let Hu := fresh "Hu" in
  destruct (dispatch_total name) as [-> | -> | -> | -> | -> | -> | Hu];
  [ rewrite Process_Write | rewrite Process_Read | rewrite Process_Remove
  | rewrite Process_Begin | rewrite Process_Discard | rewrite Process_Commit
  | rewrite Hu ].

(** * Read resolution *)

Section ReadResolution.

Implicit Types (s : Store) (k v : string).

(** With at most one transaction open there is no ancestor between the
    current transaction and the root, and [read] resolves as documented. *)
Lemma read_spec_shallow s k :
  depth (currTx s) <= 1 -> fst (read k s) = read_spec k s.
Proof.
  rewrite read_eq. cbn [fst]. unfold read_answer, read_spec.
  destruct s as [m [[[[q|] pops]|] ops]]; cbn; intros H.
  - lia.
  - destruct (last_op k ops); reflexivity.
  - reflexivity.
Qed.

(** The chain below the current transaction has no influence on what [read]
    answers: only whether there is one. *)
Lemma read_current_log_only (m : kvStore) (p q : tx) ops k :
  fst (read k {| kv := m; currTx := Tx (Some p) ops |}) =
  fst (read k {| kv := m; currTx := Tx (Some q) ops |}).
Proof. rewrite !read_eq. reflexivity. Qed.

(** C1 (fails on the code).  In the store reached by [begin], [write a x],
    [begin], the documented resolution of [a] climbs to the parent transaction
    and answers [x]; [read] scans the operations of the current transaction
    at every turn of its outer loop, never those of the transaction the loop
    variable has climbed to, and answers with the key not found error. *)
Theorem read_misses_parent_write :
  reachable nested_store /\
  depth (currTx nested_store) = 2 /\
  read_spec "a" nested_store = ("x", None) /\
  fst (read "a" nested_store) = ("", Some (ErrKeyNotFound "a")).
Proof.
  split; [apply reachable_exec, reachable_new|].
  split; [reflexivity|].
  split; [reflexivity|].
  rewrite read_eq. reflexivity.
Qed.

(** C10.  [read] gives the store back as it received it, map, transactions
    and current transaction alike, whatever it answers; so does [Process] on
    the read command. *)
Theorem read_leaves_store s k :
  snd (read k s) = s /\ forall v, snd (Process Read k v s) = s.
Proof.
  assert (H : snd (read k s) = s) by (rewrite read_eq; reflexivity).
  split; [exact H|]. intros v. rewrite Process_Read. exact H.
Qed.

(** C6.  A write followed by a read of the same key answers the value
    written, at the root and in any transaction. *)
Theorem write_read_roundtrip s k v :
  fst (read k (snd (write k v s))) = (v, None).
Proof.
  rewrite read_eq. cbn [fst]. unfold write, read_answer.
  destruct (isRoot (currTx s)) eqn:R.
  - rewrite Store_modify_root by exact R. cbn. rewrite R.
    unfold kv_answer, kvStore_modify. cbn.
    rewrite lookup_insert_eq. reflexivity.
  - rewrite Store_modify_nested by exact R. cbn.
    replace (isRoot (Tx (parent (currTx s)) _)) with (isRoot (currTx s))
      by reflexivity.
    rewrite R, last_op_snoc. cbn. rewrite String.eqb_refl. reflexivity.
Qed.

End ReadResolution.

(** * Commit, discard and begin *)

Section Transactions.

Implicit Types (s : Store) (k v : string) (p : tx).

(** C2.  With a transaction open, [commit] succeeds; the operations of the
    parent become its former operations followed by those of the committed
    transaction, in their order.  When the parent is the root and that log is
    not empty, the log is replayed on the map from oldest to newest, so that
    each key ends with the effect of the last operation on it, and the root
    is left with no operations; otherwise the map is untouched and the
    parent, carrying the merged log, becomes the current transaction. *)
Theorem commit_merges_then_flushes s :
  1 <= depth (currTx s) ->
  exists p,
    parent (currTx s) = Some p /\
    fst (commit s) = None /\
    let merged := operations p ++ operations (currTx s) in
    (isRoot p = true /\ merged <> [] ->
     snd (commit s) =
     {| kv := apply_all merged (kv s); currTx := Tx None [] |}) /\
    (~ (isRoot p = true /\ merged <> []) ->
     snd (commit s) = {| kv := kv s; currTx := Tx (parent p) merged |}) /\
    (forall k, apply_all merged (kv s) !! k = replayed k merged (kv s)).
Proof.
  intros Hd. apply isRoot_false_depth in Hd.
  destruct (parent (currTx s)) as [p|] eqn:Hp;
    [|unfold isRoot in Hd; rewrite Hp in Hd; discriminate].
  exists p. rewrite (commit_nested s p Hp). cbn [fst snd].
  split; [reflexivity|]. split; [reflexivity|]. cbv zeta.
  set (merged := operations p ++ operations (currTx s)).
  split; [|split].
  - intros [Hr Hne]. rewrite Hr. cbn [andb].
    assert (Ho : hasOperations (Tx (parent p) merged) = true)
      by (apply hasOperations_true; exact Hne).
    rewrite Ho. unfold isRoot in Hr.
    destruct (parent p); [discriminate|reflexivity].
  - intros Hn.
    destruct (isRoot p) eqn:Hr; cbn [andb]; [|reflexivity].
    destruct (hasOperations (Tx (parent p) merged)) eqn:Ho; [|reflexivity].
    exfalso. apply Hn. split; [reflexivity|].
    apply hasOperations_true in Ho. exact Ho.
  - intros k. apply apply_all_lookup.
Qed.

Lemma commit_merges_then_flushes_witness :
  exists p,
    parent (currTx pending_store) = Some p /\
    fst (commit pending_store) = None /\
    let merged := operations p ++ operations (currTx pending_store) in
    (isRoot p = true /\ merged <> [] ->
     snd (commit pending_store) =
     {| kv := apply_all merged (kv pending_store); currTx := Tx None [] |}) /\
    (~ (isRoot p = true /\ merged <> []) ->
     snd (commit pending_store) =
     {| kv := kv pending_store; currTx := Tx (parent p) merged |}) /\
    (forall k,
        apply_all merged (kv pending_store) !! k =
        replayed k merged (kv pending_store)).
Proof. apply (commit_merges_then_flushes pending_store). cbn. lia. Defined.

(** C7.  [commit] answers the no current transaction error exactly at the
    root, where it leaves the store as it was; with a transaction open it
    answers no error. *)
Theorem commit_fails_only_at_root s :
  (fst (commit s) = Some ErrNoCurrentTransation <-> depth (currTx s) = 0) /\
  (depth (currTx s) = 0 -> commit s = (Some ErrNoCurrentTransation, s)) /\
  (1 <= depth (currTx s) -> fst (commit s) = None).
Proof.
  destruct (parent (currTx s)) as [p|] eqn:Hp.
  - assert (Hd : 1 <= depth (currTx s)).
    { apply isRoot_false_depth. unfold isRoot. rewrite Hp. reflexivity. }
    rewrite (commit_nested s p Hp). cbn [fst].
    split; [split; [discriminate|lia]|]. split; [lia|reflexivity].
  - assert (Hd : depth (currTx s) = 0).
    { apply isRoot_depth. unfold isRoot. rewrite Hp. reflexivity. }
    rewrite (commit_root s Hp). cbn [fst].
    split; [split; auto|]. split; [reflexivity|lia].
Qed.

Lemma commit_fails_only_at_root_witness :
  commit NewStore = (Some ErrNoCurrentTransation, NewStore) /\
  fst (commit pending_store) = None.
Proof.
  split.
  - apply (commit_fails_only_at_root NewStore). reflexivity.
  - apply (commit_fails_only_at_root pending_store). cbn. lia.
Defined.

(** C9.  [begin] followed at once by [discard] gives back the store it
    started from: same map, same chain of transactions, same current
    transaction. *)
Theorem begin_discard_identity s : (begin ;; discard) s = (tt, s).
Proof. destruct s as [m t]. reflexivity. Qed.

End Transactions.

(** * Remove *)

Section Removal.

Implicit Types (s : Store) (k v : string).

(** [remove] fails exactly when its own [read] does, and then the store is
    left as it was. *)
Lemma remove_fails s k :
  snd (fst (read k s)) <> None ->
  remove k s = (Some (ErrKeyNotFound k), s).
Proof.
  rewrite remove_eq, read_eq. cbn [fst].
  destruct (snd (read_answer k s)); [reflexivity|congruence].
Qed.

(** Otherwise it succeeds and hands a tombstone to [modify], which routes it
    as it routes a write. *)
Lemma remove_succeeds s k :
  snd (fst (read k s)) = None ->
  remove k s = (None, snd (Store_modify (tombstone k) s)) /\
  (isRoot (currTx s) = true ->
   snd (remove k s) = {| kv := delete k (kv s); currTx := currTx s |}) /\
  (isRoot (currTx s) = false ->
   snd (remove k s) =
   {| kv := kv s;
      currTx := Tx (parent (currTx s))
                   (operations (currTx s) ++ [tombstone k]) |}).
Proof.
  rewrite remove_eq, read_eq. cbn [fst]. intros ->. cbn [snd].
  split; [reflexivity|]. split; intros R.
  - rewrite Store_modify_root by exact R. reflexivity.
  - rewrite Store_modify_nested by exact R. reflexivity.
Qed.

(** Two removes of the same key with nothing in between: the second fails. *)
Lemma remove_twice s k :
  fst (remove k (snd (remove k s))) = Some (ErrKeyNotFound k).
Proof.
  destruct (snd (fst (read k s))) as [e|] eqn:E.
  - rewrite (remove_fails s k) by congruence. cbn [snd].
    rewrite (remove_fails s k) by congruence. reflexivity.
  - destruct (remove_succeeds s k E) as (_ & Hroot & Hnested).
    destruct (isRoot (currTx s)) eqn:R.
    + rewrite (Hroot eq_refl), remove_fails; [reflexivity|].
      rewrite read_eq. cbn [fst]. unfold read_answer. cbn. rewrite R.
      unfold kv_answer. rewrite lookup_delete_eq. cbn. congruence.
    + rewrite (Hnested eq_refl), remove_fails; [reflexivity|].
      rewrite read_eq. cbn [fst]. unfold read_answer. cbn.
      replace (isRoot (Tx (parent (currTx s)) _)) with (isRoot (currTx s))
        by reflexivity.
      rewrite R, last_op_snoc. cbn. rewrite String.eqb_refl. cbn. congruence.
Qed.

(** C3 (fails on the code).  A committed key is removed in a transaction and
    a second transaction is begun.  The tombstone sits in the parent, so the
    documented resolution no longer sees the key and a second remove should
    fail; the [read] inside [remove] looks at the empty operations of the new
    transaction only, falls through to the map, finds the committed value,
    and the second remove succeeds. *)
Theorem remove_again_after_begin :
  reachable removed_store /\
  outputs removed_commands NewStore =
    [("", None); ("", None); ("", None); ("", None)] /\
  read_spec "a" removed_store = ("", Some (ErrKeyNotFound "a")) /\
  fst (read "a" removed_store) = ("A", None) /\
  fst (remove "a" removed_store) = None.
Proof.
  split; [apply reachable_exec, reachable_new|].
  repeat split; reflexivity.
Qed.

(** C8.  On a new store, after [write k A] and [begin], [remove k] succeeds
    and [read k] fails with the key not found error; after [discard],
    [read k] answers [A]. *)
Theorem tombstone_shadows_until_discard k :
  outputs
    [(Write, k, "A"); (Begin, "", ""); (Remove, k, ""); (Read, k, "");
     (Discard, "", ""); (Read, k, "")]
    NewStore =
  [("", None); ("", None); ("", None); ("", Some (ErrKeyNotFound k));
   ("", None); ("A", None)].
Proof.
  cbn [outputs run1].
  rewrite Process_Write. unfold write.
  rewrite Store_modify_root by reflexivity. cbn [snd NewStore kv currTx].
  unfold kvStore_modify. cbn [isWrite key value].
  rewrite Process_Begin, begin_eq. cbn [snd kv currTx].
  set (m := <[k:="A"]> (∅ : kvStore)).
  assert (Hm : m !! k = Some "A") by apply lookup_insert_eq.
  set (s1 := {| kv := m; currTx := Tx (Some (Tx None [])) [] |}).
  assert (Hr1 : read_answer k s1 = ("A", None)).
  { unfold read_answer, kv_answer. cbn. rewrite Hm. reflexivity. }
  rewrite Process_Remove, remove_eq, Hr1. cbn [fst snd].
  rewrite Store_modify_nested by reflexivity. cbn [snd].
  set (s2 := mkStore (kv s1) _).
  assert (Hr2 : read_answer k s2 = ("", Some (ErrKeyNotFound k))).
  { unfold read_answer. cbn. rewrite String.eqb_refl. reflexivity. }
  rewrite !Process_Read, read_eq, Hr2. cbn [fst snd].
  rewrite Process_Discard, discard_eq. cbn [snd].
  rewrite read_eq. cbn [fst].
  unfold read_answer, kv_answer. cbn. rewrite Hm. reflexivity.
Qed.

End Removal.

(** * The map and the root across commands *)

Section Invariants.

Implicit Types (s : Store) (name k v : string) (t p : tx).

Lemma base_relog t ops :
  isRoot t = false -> base (Tx (parent t) ops) = base t.
Proof. destruct t as [[p|] ops0]; cbn; [reflexivity|discriminate]. Qed.

Lemma depth_parent_root t p :
  parent t = Some p -> isRoot p = true -> depth t = 1 /\ base t = p.
Proof.
  destruct t as [[q|] ops]; cbn; [|discriminate].
  intros [= ->] R. destruct p as [[q|] pops]; cbn in *; [discriminate|].
  split; reflexivity.
Qed.

(** C4 (as stated, fails).  On a new store [write a hi] changes the map,
    and it is neither a commit nor run with a transaction open. *)
Lemma root_write_changes_map :
  ~ (kv (snd (Process Write "a" "hi" NewStore)) <> kv NewStore ->
     Write = Commit /\ depth (currTx NewStore) = 1).
Proof.
  intros H. destruct H as [E _].
  - intros E. apply (f_equal (fun m : kvStore => m !! "a")) in E.
    vm_compute in E. discriminate.
  - discriminate.
Qed.

(** C4 (amended).  A command changes the map in three situations only: a
    write at the root, which sets the key; a remove at the root, which
    deletes it; a commit of the only open transaction, which replays the
    merged log.  Every other command, and these three at any other depth,
    leave the map as it was. *)
Theorem map_changes_at_root_or_flush s name k v :
  kv (snd (Process name k v s)) <> kv s ->
  (name = Write /\ depth (currTx s) = 0 /\
   kv (snd (Process name k v s)) = <[k:=v]> (kv s)) \/
  (name = Remove /\ depth (currTx s) = 0 /\
   kv (snd (Process name k v s)) = delete k (kv s)) \/
  (name = Commit /\ depth (currTx s) = 1 /\
   kv (snd (Process name k v s)) =
   apply_all (operations (base (currTx s)) ++ operations (currTx s)) (kv s)).
Proof.
  by_command name; cbn [snd].
  - unfold write.
    destruct (isRoot (currTx s)) eqn:R.
    + rewrite Store_modify_root by exact R. cbn [snd kv]. intros _.
      left. split; [reflexivity|]. split; [apply isRoot_depth, R|reflexivity].
    + rewrite Store_modify_nested by exact R. cbn [snd kv]. congruence.
  - rewrite read_eq. cbn [snd]. congruence.
  - rewrite remove_eq.
    destruct (snd (read_answer k s)); cbn [snd]; [congruence|].
    destruct (isRoot (currTx s)) eqn:R.
    + rewrite Store_modify_root by exact R. cbn [snd kv]. intros _.
      right; left. split; [reflexivity|].
      split; [apply isRoot_depth, R|reflexivity].
    + rewrite Store_modify_nested by exact R. cbn [snd kv]. congruence.
  - rewrite begin_eq. cbn [snd kv]. congruence.
  - rewrite discard_eq. cbn [snd].
    destruct (parent (currTx s)); cbn [kv]; congruence.
  - destruct (parent (currTx s)) as [p|] eqn:Hp.
    + rewrite (commit_nested s p Hp). cbn [snd].
      destruct (isRoot p) eqn:R; cbn [andb]; [|cbn [kv]; congruence].
      destruct (hasOperations _); cbn [kv]; [|congruence].
      intros _. right; right.
      destruct (depth_parent_root _ _ Hp R) as [Hd Hb].
      rewrite Hb. split; [reflexivity|]. split; [exact Hd|reflexivity].
    + rewrite (commit_root s Hp). cbn [snd]. congruence.
  - congruence.
Qed.

Lemma map_changes_at_root_or_flush_witness :
  (Write = Write /\ depth (currTx NewStore) = 0 /\
   kv (snd (Process Write "a" "hi" NewStore)) = <["a":="hi"]> (kv NewStore)) \/
  (Write = Remove /\ depth (currTx NewStore) = 0 /\
   kv (snd (Process Write "a" "hi" NewStore)) = delete "a" (kv NewStore)) \/
  (Write = Commit /\ depth (currTx NewStore) = 1 /\
   kv (snd (Process Write "a" "hi" NewStore)) =
   apply_all (operations (base (currTx NewStore)) ++
              operations (currTx NewStore)) (kv NewStore)).
Proof.
  apply (map_changes_at_root_or_flush NewStore Write "a" "hi").
  intros E. apply (f_equal (fun m : kvStore => m !! "a")) in E.
  vm_compute in E. discriminate.
Defined.

(** One command keeps the root without operations. *)
Lemma Process_keeps_base_empty s name k v :
  operations (base (currTx s)) = [] ->
  operations (base (currTx (snd (Process name k v s)))) = [].
Proof.
  intros H. by_command name; cbn [snd].
  - unfold write.
    destruct (isRoot (currTx s)) eqn:R.
    + rewrite Store_modify_root by exact R. exact H.
    + rewrite Store_modify_nested by exact R. cbn [snd currTx].
      rewrite base_relog by exact R. exact H.
  - rewrite read_eq. exact H.
  - rewrite remove_eq.
    destruct (snd (read_answer k s)); cbn [snd]; [exact H|].
    destruct (isRoot (currTx s)) eqn:R.
    + rewrite Store_modify_root by exact R. exact H.
    + rewrite Store_modify_nested by exact R. cbn [snd currTx].
      rewrite base_relog by exact R. exact H.
  - rewrite begin_eq. exact H.
  - rewrite discard_eq. cbn [snd].
    destruct (parent (currTx s)) as [p|] eqn:Hp; [|exact H].
    cbn [currTx]. rewrite <- (base_parent _ _ Hp). exact H.
  - destruct (parent (currTx s)) as [p|] eqn:Hp.
    + rewrite (commit_nested s p Hp). cbn [snd].
      rewrite (base_parent _ _ Hp) in H.
      destruct (isRoot p) eqn:R; cbn [andb].
      * rewrite (base_root p R) in H.
        assert (Hpp : parent p = None)
          by (unfold isRoot in R; destruct (parent p); congruence).
        rewrite Hpp.
        destruct (hasOperations _) eqn:Ho; cbn [currTx base operations];
          [reflexivity|].
        destruct (operations p ++ operations (currTx s)) eqn:E;
          [reflexivity|].
        unfold hasOperations in Ho. cbn in Ho. discriminate.
      * cbn [currTx]. rewrite base_relog by exact R. exact H.
    + rewrite (commit_root s Hp). exact H.
  - exact H.
Qed.

(** C5.  In every store reached from [NewStore] by completed commands, the
    root transaction has no operations. *)
Theorem base_log_empty s : reachable s -> operations (base (currTx s)) = [].
Proof.
  induction 1 as [|s name k v _ IH].
  - reflexivity.
  - apply Process_keeps_base_empty. exact IH.
Qed.

Lemma base_log_empty_witness :
  operations (base (currTx pending_store)) = [].
Proof.
  apply (base_log_empty pending_store).
  apply (reachable_exec _ NewStore). apply reachable_new.
Defined.

End Invariants.

(** * Further properties of the store *)

Section Commands.

Implicit Types (s : Store) (name k v : string) (t p : tx) (c : command).

Lemma command_view_total name : command_view name.
Proof.
  destruct (String.eqb name Write) eqn:E1;
    [apply view_write, String.eqb_eq, E1|].
  destruct (String.eqb name Read) eqn:E2;
    [apply view_read, String.eqb_eq, E2|].
  destruct (String.eqb name Remove) eqn:E3;
    [apply view_remove, String.eqb_eq, E3|].
  destruct (String.eqb name Begin) eqn:E4;
    [apply view_begin, String.eqb_eq, E4|].
  destruct (String.eqb name Discard) eqn:E5;
    [apply view_discard, String.eqb_eq, E5|].
  destruct (String.eqb name Commit) eqn:E6;
    [apply view_commit, String.eqb_eq, E6|].
  apply view_default.
  - apply String.eqb_neq in E1, E2, E3, E4, E5, E6.
    cbn. intuition congruence.
  - intros k v s. unfold Process.
    rewrite E1, E2, E3, E4, E5, E6. reflexivity.
Qed.

Lemma outside_vocabulary name :
  ~ In name vocabulary ->
  String.eqb name Begin = false /\ String.eqb name Commit = false /\
  String.eqb name Discard = false.
Proof.
  intros H. repeat split; apply String.eqb_neq; intros ->; apply H; cbn; auto 10.
Qed.

Lemma depth_relog t ops : depth (Tx (parent t) ops) = depth t.
Proof. destruct t as [[p|] ops0]; reflexivity. Qed.

Lemma depth_parent t p : parent t = Some p -> depth t = S (depth p).
Proof. destruct t as [[q|] ops]; cbn; congruence. Qed.

Lemma exec_app (cs1 cs2 : list command) s :
  exec (cs1 ++ cs2) s = exec cs2 (exec cs1 s).
Proof.
  revert s. induction cs1 as [|c cs1 IH]; intros s; cbn; [reflexivity|].
  apply IH.
Qed.

Lemma outputs_app (cs1 cs2 : list command) s :
  outputs (cs1 ++ cs2) s = outputs cs1 s ++ outputs cs2 (exec cs1 s).
Proof.
  revert s. induction cs1 as [|c cs1 IH]; intros s; cbn; [reflexivity|].
  rewrite IH. reflexivity.
Qed.

Lemma reachable_base_empty s :
  reachable s -> operations (base (currTx s)) = [].
Proof.
  induction 1 as [|s name k v _ IH]; [reflexivity|].
  apply Process_keeps_base_empty. exact IH.
Qed.

End Commands.

(** Case analysis on the command of a [Process] call that keeps, in the
    default case, the fact that the name is not in the vocabulary. *)
Ltac by_view name :=
  let Hout := fresh "Hout" in
  let Hu := fresh "Hu" in
  destruct (command_view_total name) as [-> | -> | -> | -> | -> | -> | Hout Hu];
  [ rewrite Process_Write | rewrite Process_Read | rewrite Process_Remove
  | rewrite Process_Begin | rewrite Process_Discard | rewrite Process_Commit
  | rewrite Hu ].

Section Depth.

Implicit Types (s : Store) (name k v : string) (t p : tx) (c : command).

(** X1.  How every command moves the depth of the stack: [begin] adds one;
    [commit] and [discard] take one away, and nothing at the root; every
    other command, supported or not, failing or not, leaves it alone. *)
Theorem Process_depth s name k v :
  depth (currTx (snd (Process name k v s))) =
  depth_after name (depth (currTx s)).
Proof.
  by_view name; cbn [snd].
  - change (depth_after Write ?d) with d. unfold write.
    destruct (isRoot (currTx s)) eqn:R.
    + rewrite Store_modify_root by exact R. reflexivity.
    + rewrite Store_modify_nested by exact R. apply depth_relog.
  - rewrite read_eq. reflexivity.
  - change (depth_after Remove ?d) with d. rewrite remove_eq.
    destruct (snd (read_answer k s)); cbn [snd]; [reflexivity|].
    destruct (isRoot (currTx s)) eqn:R.
    + rewrite Store_modify_root by exact R. reflexivity.
    + rewrite Store_modify_nested by exact R. apply depth_relog.
  - reflexivity.
  - change (depth_after Discard ?d) with (Nat.pred d).
    rewrite discard_eq. cbn [snd].
    destruct (parent (currTx s)) as [p|] eqn:Hp.
    + rewrite (depth_parent _ _ Hp). reflexivity.
    + assert (H0 : depth (currTx s) = 0)
        by (apply isRoot_depth; unfold isRoot; rewrite Hp; reflexivity).
      rewrite H0. reflexivity.
  - change (depth_after Commit ?d) with (Nat.pred d).
    destruct (parent (currTx s)) as [p|] eqn:Hp.
    + rewrite (commit_nested s p Hp), (depth_parent _ _ Hp). cbn [snd Nat.pred].
      destruct (isRoot p && _); cbn [currTx]; apply depth_relog.
    + rewrite (commit_root s Hp). cbn [snd].
      assert (H0 : depth (currTx s) = 0)
        by (apply isRoot_depth; unfold isRoot; rewrite Hp; reflexivity).
      rewrite H0. reflexivity.
  - unfold depth_after.
    destruct (outside_vocabulary name Hout) as (-> & -> & ->). reflexivity.
Qed.

End Depth.

Section Unwinding.

Implicit Types (s : Store) (name k v : string) (t p : tx) (c : command).

Lemma keeps_stack_step c s t :
  keeps_stack c = true -> parent (currTx s) = Some t ->
  kv (snd (run1 c s)) = kv s /\ parent (currTx (snd (run1 c s))) = Some t.
Proof.
  destruct c as [[name k] v]. cbn [keeps_stack run1]. intros Hc Hp.
  assert (R : isRoot (currTx s) = false)
    by (unfold isRoot; rewrite Hp; reflexivity).
  by_view name; cbn [snd]; try discriminate Hc.
  - unfold write. rewrite Store_modify_nested by exact R.
    split; [reflexivity|exact Hp].
  - rewrite read_eq. split; [reflexivity|exact Hp].
  - rewrite remove_eq.
    destruct (snd (read_answer k s)); cbn [snd]; [split; [reflexivity|exact Hp]|].
    rewrite Store_modify_nested by exact R. split; [reflexivity|exact Hp].
  - split; [reflexivity|exact Hp].
Qed.

Lemma keeps_stack_exec cs s t :
  forallb keeps_stack cs = true -> parent (currTx s) = Some t ->
  kv (exec cs s) = kv s /\ parent (currTx (exec cs s)) = Some t.
Proof.
  revert s. induction cs as [|c cs IH]; intros s Hcs Hp; cbn.
  - split; [reflexivity|exact Hp].
  - cbn in Hcs. apply andb_prop in Hcs. destruct Hcs as [Hc Hcs].
    destruct (keeps_stack_step c s t Hc Hp) as [Hk Hp'].
    destruct (IH _ Hcs Hp') as [Hk' Hp''].
    split; [congruence|exact Hp''].
Qed.

(** X2.  [discard] undoes a transaction: after [begin], any run of commands
    that neither open nor close a transaction (writes, removes, reads,
    unsupported names) and then [discard], the store is the one [begin]
    started from, map and transactions alike. *)
Theorem discard_undoes_transaction s cs :
  forallb keeps_stack cs = true ->
  exec ((Begin, "", "") :: cs ++ [(Discard, "", "")]) s = s.
Proof.
  intros Hcs. cbn [exec run1]. rewrite Process_Begin, begin_eq. cbn [snd].
  rewrite exec_app. cbn [exec run1].
  rewrite Process_Discard, discard_eq. cbn [snd].
  set (s1 := {| kv := kv s; currTx := Tx (Some (currTx s)) [] |}).
  destruct (keeps_stack_exec cs s1 (currTx s) Hcs eq_refl) as [Hk Hp].
  rewrite Hp, Hk. destruct s as [m t]. reflexivity.
Qed.

Lemma discard_undoes_transaction_witness :
  exec ((Begin, "", "") ::
        [(Write, "a", "1"); (Remove, "a", ""); (Read, "a", "")] ++
        [(Discard, "", "")]) pending_store = pending_store.
Proof. apply (discard_undoes_transaction pending_store). reflexivity. Defined.

Lemma commit_deep s p :
  parent (currTx s) = Some p -> isRoot p = false ->
  snd (commit s) =
  {| kv := kv s;
     currTx := Tx (parent p) (operations p ++ operations (currTx s)) |}.
Proof.
  intros Hp R. rewrite (commit_nested s p Hp). cbn [snd].
  rewrite R. reflexivity.
Qed.

Lemma pending_deep t p :
  parent t = Some p -> isRoot p = false ->
  pending (Tx (parent p) (operations p ++ operations t)) = pending t.
Proof.
  destruct t as [[q|] ops]; cbn; [|discriminate]. intros [= ->].
  destruct p as [[q|] pops]; cbn; [|discriminate]. intros _.
  rewrite app_assoc. reflexivity.
Qed.

Lemma commit_last s p :
  parent (currTx s) = Some p -> isRoot p = true ->
  snd (commit s) =
  {| kv := apply_all (pending (currTx s)) (kv s); currTx := Tx None [] |}.
Proof.
  intros Hp R. rewrite (commit_nested s p Hp). cbn [snd]. rewrite R.
  destruct s as [m [[q|] ops]]; cbn in Hp; [|discriminate].
  injection Hp as ->.
  destruct p as [[q|] pops]; cbn in R; [discriminate|]. cbn.
  destruct (pops ++ ops) as [|o l] eqn:E; reflexivity.
Qed.

Lemma commit_all_exec n :
  forall s, depth (currTx s) = S n ->
  exec (replicate (S n) (Commit, "", "")) s =
  {| kv := apply_all (pending (currTx s)) (kv s); currTx := Tx None [] |} /\
  outputs (replicate (S n) (Commit, "", "")) s =
  replicate (S n) ("", None).
Proof.
  induction n as [|n IH]; intros s Hd.
  - cbn [replicate exec outputs run1]. rewrite Process_Commit. cbn [fst snd].
    destruct (parent (currTx s)) as [p|] eqn:Hp.
    + assert (R : isRoot p = true).
      { apply isRoot_depth. rewrite (depth_parent _ _ Hp) in Hd. lia. }
      rewrite (commit_last s p Hp R).
      rewrite (commit_nested s p Hp). split; reflexivity.
    + assert (H0 : depth (currTx s) = 0)
        by (apply isRoot_depth; unfold isRoot; rewrite Hp; reflexivity).
      lia.
  - change (replicate (S (S n)) (Commit, "", ""))
      with ((Commit, "", "") :: replicate (S n) (Commit, "", "")).
    cbn [exec outputs run1]. rewrite Process_Commit. cbn [fst snd].
    destruct (parent (currTx s)) as [p|] eqn:Hp.
    + assert (Hdp : depth p = S n)
        by (rewrite (depth_parent _ _ Hp) in Hd; lia).
      assert (R : isRoot p = false) by (apply isRoot_false_depth; lia).
      rewrite (commit_deep s p Hp R).
      rewrite (commit_nested s p Hp). cbn [fst].
      set (s1 := {| kv := kv s; currTx := Tx (parent p) _ |}).
      assert (Hd1 : depth (currTx s1) = S n)
        by (unfold s1; cbn [currTx]; rewrite depth_relog; exact Hdp).
      destruct (IH s1 Hd1) as [He Ho]. rewrite He, Ho.
      unfold s1. cbn [kv currTx]. rewrite (pending_deep _ _ Hp R).
      split; reflexivity.
    + assert (H0 : depth (currTx s) = 0)
        by (apply isRoot_depth; unfold isRoot; rewrite Hp; reflexivity).
      lia.
Qed.

(** X3.  Committing every open transaction: each commit succeeds, and the
    outcome is the map on which all pending operations have been replayed,
    outermost transaction first and each log in its order, under a root
    without operations.  So each key ends with the effect of the last
    pending operation on it, an inner transaction counting as later than the
    ones around it. *)
Theorem commit_all_flushes_pending s :
  1 <= depth (currTx s) ->
  exec (commit_all s) s =
  {| kv := apply_all (pending (currTx s)) (kv s); currTx := Tx None [] |} /\
  outputs (commit_all s) s = replicate (depth (currTx s)) ("", None) /\
  forall k,
    kv (exec (commit_all s) s) !! k =
    replayed k (pending (currTx s)) (kv s).
Proof.
  intros Hd. unfold commit_all.
  destruct (depth (currTx s)) as [|n] eqn:E; [lia|].
  destruct (commit_all_exec n s E) as [He Ho].
  rewrite He, Ho. split; [reflexivity|]. split; [reflexivity|].
  intros k. apply apply_all_lookup.
Qed.

Lemma commit_all_flushes_pending_witness :
  exec (commit_all stacked_store) stacked_store =
  {| kv := apply_all (pending (currTx stacked_store)) (kv stacked_store);
     currTx := Tx None [] |} /\
  outputs (commit_all stacked_store) stacked_store =
  replicate (depth (currTx stacked_store)) ("", None) /\
  forall k,
    kv (exec (commit_all stacked_store) stacked_store) !! k =
    replayed k (pending (currTx stacked_store)) (kv stacked_store).
Proof. apply (commit_all_flushes_pending stacked_store). vm_compute. lia. Defined.

End Unwinding.

Section Visibility.

Implicit Types (s : Store) (name k v : string) (t p : tx) (c : command).

Lemma last_op_app k (ops1 ops2 : list operation) :
  last_op k (ops1 ++ ops2) =
  match last_op k ops2 with
  | Some o => Some o
  | None => last_op k ops1
  end.
Proof.
  induction ops1 as [|o ops1 IH]; cbn.
  - destruct (last_op k ops2); reflexivity.
  - rewrite IH. destruct (last_op k ops2); reflexivity.
Qed.

Lemma kv_answer_ext k (m1 m2 : kvStore) :
  m1 !! k = m2 !! k -> kv_answer k m1 = kv_answer k m2.
Proof. unfold kv_answer. intros ->. reflexivity. Qed.

Lemma kv_answer_replayed k ops (m : kvStore) op :
  last_op k ops = Some op -> kv_answer k (apply_all ops m) = found k op.
Proof.
  intros H. unfold kv_answer, found.
  rewrite apply_all_lookup. unfold replayed. rewrite H.
  destruct (isWrite op); reflexivity.
Qed.

(** A key the committed transaction wrote or removed reads the same after
    the commit. *)
Lemma commit_keeps_touched s k op :
  last_op k (operations (currTx s)) = Some op ->
  fst (read k (snd (commit s))) = fst (read k s).
Proof.
  intros Hl.
  destruct (parent (currTx s)) as [p|] eqn:Hp;
    [|rewrite (commit_root s Hp); reflexivity].
  assert (R : isRoot (currTx s) = false)
    by (unfold isRoot; rewrite Hp; reflexivity).
  assert (Hm : last_op k (operations p ++ operations (currTx s)) = Some op)
    by (rewrite last_op_app, Hl; reflexivity).
  rewrite (commit_nested s p Hp), !read_eq. cbn [fst snd].
  unfold read_answer at 2. rewrite R, Hl.
  destruct (isRoot p) eqn:Rp; cbn [andb].
  - assert (Ho : hasOperations
                   (Tx (parent p) (operations p ++ operations (currTx s)))
                 = true).
    { apply hasOperations_true. cbn. intros E. rewrite E in Hm. discriminate. }
    rewrite Ho. unfold read_answer. cbn [currTx kv].
    replace (isRoot (Tx (parent p) [])) with (isRoot p) by reflexivity.
    rewrite Rp. apply kv_answer_replayed. exact Hm.
  - unfold read_answer. cbn [currTx kv operations].
    replace (isRoot (Tx (parent p) _)) with (isRoot p) by reflexivity.
    rewrite Rp, Hm. reflexivity.
Qed.

(** With a single transaction open on a root without operations, every key
    reads the same after the commit. *)
Lemma commit_keeps_shallow s k :
  operations (base (currTx s)) = [] -> depth (currTx s) <= 1 ->
  fst (read k (snd (commit s))) = fst (read k s).
Proof.
  intros Hb Hd.
  destruct (last_op k (operations (currTx s))) as [op|] eqn:Hl;
    [exact (commit_keeps_touched s k op Hl)|].
  destruct (parent (currTx s)) as [p|] eqn:Hp;
    [|rewrite (commit_root s Hp); reflexivity].
  assert (Rp : isRoot p = true).
  { apply isRoot_depth. rewrite (depth_parent _ _ Hp) in Hd. lia. }
  assert (R : isRoot (currTx s) = false)
    by (unfold isRoot; rewrite Hp; reflexivity).
  rewrite (commit_last s p Hp Rp), !read_eq. cbn [fst].
  unfold read_answer. rewrite R, Hl. cbn [currTx kv isRoot parent].
  apply kv_answer_ext. rewrite apply_all_lookup. unfold replayed.
  destruct (depth_parent_root _ _ Hp Rp) as [_ Hbp].
  destruct s as [m [[q|] ops]]; cbn in *; [|discriminate].
  injection Hp as ->. rewrite base_root in Hb by exact Rp.
  destruct p as [[q|] pops]; cbn in *; [discriminate|]. subst pops.
  cbn. rewrite Hl. reflexivity.
Qed.

(** X4.  [commit] does not change what the client reads, in two situations:
    for every key, when at most one transaction is open in a store reached
    from [NewStore]; and at any depth, in any store, for a key that the
    committed transaction itself wrote or removed. *)
Theorem commit_keeps_reads s k :
  (reachable s /\ depth (currTx s) <= 1) \/
  last_op k (operations (currTx s)) <> None ->
  fst (read k (snd (commit s))) = fst (read k s).
Proof.
  intros [[Hr Hd]|Hl].
  - apply commit_keeps_shallow; [apply reachable_base_empty, Hr|exact Hd].
  - destruct (last_op k (operations (currTx s))) as [op|] eqn:E;
      [|congruence].
    exact (commit_keeps_touched s k op E).
Qed.

Lemma commit_keeps_reads_witness :
  fst (read "a" (snd (commit pending_store))) = fst (read "a" pending_store) /\
  fst (read "b" (snd (commit pending_store))) = fst (read "b" pending_store) /\
  fst (read "a" (snd (commit stacked_store))) = fst (read "a" stacked_store).
Proof.
  split; [|split].
  - apply (commit_keeps_reads pending_store "a"). right. vm_compute. discriminate.
  - apply (commit_keeps_reads pending_store "b"). left.
    split; [apply (reachable_exec _ NewStore), reachable_new|vm_compute; lia].
  - apply (commit_keeps_reads stacked_store "a"). right. vm_compute. discriminate.
Defined.

(** X5.  In a store reached from [NewStore], [begin] followed at once by
    [commit] succeeds and gives back the store it started from: committing
    an empty transaction changes nothing, at any depth. *)
Theorem begin_commit_identity s :
  reachable s -> (begin ;; commit) s = (None, s).
Proof.
  intros Hr. apply reachable_base_empty in Hr.
  unfold bind at 1. rewrite begin_eq.
  set (s1 := {| kv := kv s; currTx := Tx (Some (currTx s)) [] |}).
  rewrite (commit_nested s1 (currTx s) eq_refl). cbn [s1 kv currTx operations].
  rewrite app_nil_r.
  destruct s as [m [[q|] ops]]; cbn in *.
  - reflexivity.
  - subst ops. reflexivity.
Qed.

Lemma begin_commit_identity_witness :
  (begin ;; commit) stacked_store = (None, stacked_store).
Proof.
  apply (begin_commit_identity stacked_store).
  apply (reachable_exec _ NewStore), reachable_new.
Defined.

(** X8.  A write or a remove of one key does not change what any other key
    reads, at the root or in a transaction, whether the remove succeeds or
    not. *)
Theorem other_keys_unaffected s k v k' :
  k' <> k ->
  fst (read k' (snd (write k v s))) = fst (read k' s) /\
  fst (read k' (snd (remove k s))) = fst (read k' s).
Proof.
  intros Hne.
  assert (E : String.eqb k' k = false) by (apply String.eqb_neq; exact Hne).
  assert (Hmod : forall op, key op = k ->
            fst (read k' (snd (Store_modify op s))) = fst (read k' s)).
  { intros op Hop. rewrite !read_eq. cbn [fst]. unfold read_answer.
    destruct (isRoot (currTx s)) eqn:R.
    - rewrite Store_modify_root by exact R. cbn [snd kv currTx]. rewrite R.
      apply kv_answer_ext. unfold kvStore_modify. rewrite Hop.
      destruct (isWrite op).
      + apply lookup_insert_ne. congruence.
      + apply lookup_delete_ne. congruence.
    - rewrite Store_modify_nested by exact R. cbn [snd kv currTx operations].
      replace (isRoot (Tx (parent (currTx s)) _)) with (isRoot (currTx s))
        by reflexivity.
      rewrite R, last_op_snoc, Hop, E. reflexivity. }
  split.
  - unfold write. apply Hmod. reflexivity.
  - rewrite remove_eq.
    destruct (snd (read_answer k s)); cbn [snd]; [reflexivity|].
    apply Hmod. reflexivity.
Qed.

Lemma other_keys_unaffected_witness :
  fst (read "a" (snd (write "b" "new" pending_store))) =
    fst (read "a" pending_store) /\
  fst (read "a" (snd (remove "b" pending_store))) =
    fst (read "a" pending_store).
Proof. apply (other_keys_unaffected pending_store "b" "new" "a"). discriminate. Defined.

(** X9.  [remove] succeeds exactly when [read] of the same key does; and
    whatever it returned, the key is unreadable afterwards: [read] fails with
    the key not found error for that key. *)
Theorem remove_mirrors_read s k :
  (fst (remove k s) = None <-> snd (fst (read k s)) = None) /\
  fst (read k (snd (remove k s))) = ("", Some (ErrKeyNotFound k)).
Proof.
  rewrite remove_eq, !read_eq. cbn [fst].
  assert (Hfail : forall e, snd (read_answer k s) = Some e ->
            read_answer k s = ("", Some (ErrKeyNotFound k))).
  { unfold read_answer, kv_answer, found.
    destruct (isRoot (currTx s)); [|destruct (last_op k _) as [op|]];
      try destruct (isWrite op); try destruct (kv s !! k);
      cbn; intros e He; congruence. }
  destruct (snd (read_answer k s)) as [e|] eqn:E; cbn [fst snd].
  - split; [split; discriminate|]. exact (Hfail e eq_refl).
  - split; [split; reflexivity|].
    unfold read_answer.
    destruct (isRoot (currTx s)) eqn:R.
    + rewrite Store_modify_root by exact R. cbn [snd kv currTx]. rewrite R.
      unfold kv_answer, kvStore_modify, tombstone. cbn.
      rewrite lookup_delete_eq. reflexivity.
    + rewrite Store_modify_nested by exact R. cbn [snd kv currTx operations].
      replace (isRoot (Tx (parent (currTx s)) _)) with (isRoot (currTx s))
        by reflexivity.
      rewrite R, last_op_snoc. cbn. rewrite String.eqb_refl. reflexivity.
Qed.

End Visibility.

Section Failures.

Implicit Types (s : Store) (name k v : string) (e : error).

(** X6.  A command that returns an error has changed nothing: the store
    after a failing [Process] call is the store before it. *)
Theorem failed_command_changes_nothing s name k v :
  snd (fst (Process name k v s)) <> None -> snd (Process name k v s) = s.
Proof.
  by_view name; cbn [fst snd]; try congruence.
  - rewrite read_eq. reflexivity.
  - rewrite remove_eq. destruct (snd (read_answer k s)); cbn; congruence.
  - destruct (parent (currTx s)) as [p|] eqn:Hp.
    + rewrite (commit_nested s p Hp). cbn. congruence.
    + rewrite (commit_root s Hp). reflexivity.
Qed.

Lemma failed_command_changes_nothing_witness :
  snd (Process Remove "zz" "" stacked_store) = stacked_store.
Proof.
  apply (failed_command_changes_nothing stacked_store Remove "zz" "").
  vm_compute. discriminate.
Defined.



End Failures.

(** * The front end *)

Section FrontEnd.

Implicit Types (s : Store) (name c k v : string) (fields : list string).

Lemma validCommands_lookup name (n : Z) :
  repl.validCommands !! name = Some n <->
  (name = Write /\ n = 2%Z) \/
  ((name = Read \/ name = Remove) /\ n = 1%Z) \/
  ((name = Begin \/ name = Commit \/ name = Discard \/ name = repl.exit) /\
   n = 0%Z).
Proof.
  unfold repl.validCommands. cbn [list_to_map foldr fst snd uncurry].
  rewrite !lookup_insert, lookup_empty.
  repeat case_decide; subst;
    (split;
     [ intros Hx; try discriminate Hx; injection Hx as <-; auto 10
     | intros Hx; intuition (subst; try congruence; try discriminate) ]).
Qed.

Lemma validCommands_range name (n : Z) :
  repl.validCommands !! name = Some n -> (0 <= n <= 2)%Z.
Proof. rewrite validCommands_lookup. intros H. lia. Qed.

Lemma validCommands_store name (n : Z) :
  repl.validCommands !! name = Some n ->
  name = repl.exit \/ In name vocabulary.
Proof. rewrite validCommands_lookup. cbn. intuition auto 10. Qed.


Lemma parse_shape fields :
  repl.parse fields =
  match fields with
  | [] => ("", "", "", Some repl.errNoCommand)
  | name :: rest =>
      match repl.validCommands !! name with
      | None => ("", "", "", Some (repl.errUnsupportedCommand name))
      | Some n =>
          if decide (n = Z.of_nat (length rest))
          then (name, default "" (rest !! 0), default "" (rest !! 1), None)
          else ("", "", "", Some (repl.errInvalidNumArguments name n))
      end
  end.
Proof.
  unfold repl.parse. destruct fields as [|name rest]; [reflexivity|].
  cbn [length repl.field lookup list_lookup default id].
  rewrite decide_False by discriminate.
  change (default "" (Some name)) with name.
  destruct (repl.validCommands !! name) as [n|] eqn:E; [|reflexivity].
  pose proof (validCommands_range name n E) as Hn.
  destruct (decide (n <> Z.of_nat (S (length rest)) - 1)%Z) as [Hd|Hd].
  - rewrite decide_False by lia. reflexivity.
  - rewrite decide_True by lia.
    destruct rest as [|k [|v [|x rest]]]; cbn in *; try reflexivity. lia.
Qed.

(** The accepted lines, field by field. *)
Lemma parse_ok fields c k v :
  repl.parse fields = (c, k, v, None) <->
  exists n : Z,
    repl.validCommands !! c = Some n /\
    ((n = 0%Z /\ fields = [c] /\ k = "" /\ v = "") \/
     (n = 1%Z /\ fields = [c; k] /\ v = "") \/
     (n = 2%Z /\ fields = [c; k; v])).
Proof.
  rewrite parse_shape. split.
  - destruct fields as [|name rest]; [discriminate|].
    destruct (repl.validCommands !! name) as [n|] eqn:E; [|discriminate].
    pose proof (validCommands_range name n E) as Hn.
    case_decide as Hd; [|discriminate].
    intros [= <- <- <-]. exists n. split; [exact E|].
    destruct rest as [|k [|v [|x rest]]]; cbn in *.
    + left. split; [lia|auto].
    + right; left. split; [lia|auto].
    + right; right. split; [lia|auto].
    + lia.
  - intros (n & E & [(-> & -> & -> & ->)|[(-> & -> & ->)|(-> & ->)]]);
      rewrite E; reflexivity.
Qed.

(** X10.  The lines [parse] accepts: the first field is a key of
    [validCommands] and it is followed by exactly as many fields as that
    table requires.  The command, key and value returned are those fields,
    in their order, and the slots the command does not use are empty. *)
Theorem parse_accepts fields c k v :
  repl.parse fields = (c, k, v, None) <->
  exists n : Z,
    repl.validCommands !! c = Some n /\
    ((n = 0%Z /\ fields = [c] /\ k = "" /\ v = "") \/
     (n = 1%Z /\ fields = [c; k] /\ v = "") \/
     (n = 2%Z /\ fields = [c; k; v])).
Proof. exact (parse_ok fields c k v). Qed.

(** X11.  The lines [parse] rejects, with the error of each: no field at
    all; a first field that is not a key of [validCommands]; a known command
    followed by a number of fields other than the required one.  The error
    carries the command name and, in the last case, the required number; the
    three strings returned are empty. *)
Theorem parse_rejects fields e :
  snd (repl.parse fields) = Some e ->
  fst (repl.parse fields) = ("", "", "") /\
  ((fields = [] /\ e = repl.errNoCommand) \/
   (exists name rest,
       fields = name :: rest /\ repl.validCommands !! name = None /\
       e = repl.errUnsupportedCommand name) \/
   (exists name rest n,
       fields = name :: rest /\ repl.validCommands !! name = Some n /\
       n <> Z.of_nat (length rest) /\
       e = repl.errInvalidNumArguments name n)).
Proof.
  rewrite parse_shape.
  destruct fields as [|name rest].
  - intros [= <-]. split; [reflexivity|]. left. auto.
  - destruct (repl.validCommands !! name) as [n|] eqn:E.
    + case_decide as Hd; [discriminate|].
      intros [= <-]. split; [reflexivity|]. right; right.
      exists name, rest, n. auto.
    + intros [= <-]. split; [reflexivity|]. right; left.
      exists name, rest. auto.
Qed.

Lemma parse_rejects_witness :
  fst (repl.parse ["write"; "1"; "2"; "3"]) = ("", "", "") /\
  ((["write"; "1"; "2"; "3"] = [] /\
    repl.errInvalidNumArguments "write" 2 = repl.errNoCommand) \/
   (exists name rest,
       ["write"; "1"; "2"; "3"] = name :: rest /\
       repl.validCommands !! name = None /\
       repl.errInvalidNumArguments "write" 2 =
       repl.errUnsupportedCommand name) \/
   (exists name rest n,
       ["write"; "1"; "2"; "3"] = name :: rest /\
       repl.validCommands !! name = Some n /\
       n <> Z.of_nat (length rest) /\
       repl.errInvalidNumArguments "write" 2 =
       repl.errInvalidNumArguments name n)).
Proof.
  apply (parse_rejects ["write"; "1"; "2"; "3"]
           (repl.errInvalidNumArguments "write" 2)).
  reflexivity.
Defined.


Lemma read_answer_error k s e :
  snd (read_answer k s) = Some e ->
  read_answer k s = ("", Some (ErrKeyNotFound k)).
Proof.
  unfold read_answer, kv_answer, found.
  destruct (isRoot (currTx s)); [|destruct (last_op k _) as [op|]];
    try destruct (isWrite op); try destruct (kv s !! k);
    cbn; intros He; congruence.
Qed.

(** What a supported command can fail with, and that it then leaves the
    store alone. *)
Lemma Process_supported_failure name k v s e :
  In name vocabulary -> snd (fst (Process name k v s)) = Some e ->
  (e = ErrKeyNotFound k \/ e = ErrNoCurrentTransation) /\
  snd (Process name k v s) = s.
Proof.
  intros Hin. by_view name; cbn [fst snd]; try discriminate.
  - rewrite read_eq. cbn [fst snd]. intros He.
    rewrite (read_answer_error k s e He) in He. cbn in He. split; [|reflexivity].
    left. congruence.
  - rewrite remove_eq.
    destruct (snd (read_answer k s)); cbn [fst snd]; [|discriminate].
    intros [= <-]. auto.
  - destruct (parent (currTx s)) as [p|] eqn:Hp.
    + rewrite (commit_nested s p Hp). discriminate.
    + rewrite (commit_root s Hp). cbn [fst snd]. intros [= <-]. auto.
  - contradiction.
Qed.

(** Only a successful read returns a non-empty string. *)
Lemma Process_value name k v s out :
  fst (Process name k v s) = (out, None) -> out <> "" ->
  name = Read /\ fst (read k s) = (out, None).
Proof.
  by_view name; cbn [fst snd]; try (intros [= <-]; congruence).
  auto.
Qed.

Lemma next_rejected fields s e :
  snd (repl.parse fields) = Some e ->
  repl.next fields s = ([repl.Prompt; repl.Stderr_parse e], s).
Proof.
  unfold repl.next. destruct (repl.parse fields) as [[[c k] v] err].
  cbn [snd]. intros ->. reflexivity.
Qed.

Lemma next_accepted fields s c k v :
  repl.parse fields = (c, k, v, None) ->
  repl.next fields s =
  if String.eqb c repl.exit then ([repl.Prompt; repl.Exit 0], s)
  else
    match snd (fst (Process c k v s)) with
    | Some e => ([repl.Prompt; repl.Stderr_store e], snd (Process c k v s))
    | None =>
        if decide (0 < String.length (fst (fst (Process c k v s))))
        then ([repl.Prompt; repl.Stdout (fst (fst (Process c k v s)))],
              snd (Process c k v s))
        else ([repl.Prompt], snd (Process c k v s))
    end.
Proof.
  unfold repl.next. intros ->.
  destruct (String.eqb c repl.exit); [reflexivity|].
  destruct (Process c k v s) as [[out [e|]] s']; reflexivity.
Qed.

Lemma length_pos_nonempty (out : string) :
  0 < String.length out <-> out <> "".
Proof. destruct out; cbn; split; (congruence || lia). Qed.

(** X12.  The store errors a turn of the loop can print are the key not
    found error and the no current transaction error.  The unsupported
    command error of the store is never among them: every key of
    [validCommands] other than [exit], which is handled before the store is
    called, is a command of [Process]. *)
Theorem next_store_errors fields s e :
  In (repl.Stderr_store e) (fst (repl.next fields s)) ->
  (exists k, e = ErrKeyNotFound k) \/ e = ErrNoCurrentTransation.
Proof.
  destruct (repl.parse fields) as [[[c0 k] v] [e0|]] eqn:Hp.
  - rewrite (next_rejected fields s e0) by (rewrite Hp; reflexivity).
    cbn. intuition discriminate.
  - rewrite (next_accepted fields s c0 k v Hp).
    apply parse_ok in Hp. destruct Hp as (n & Hn & _).
    destruct (String.eqb c0 repl.exit) eqn:Ex; [cbn; intuition discriminate|].
    destruct (validCommands_store c0 n Hn) as [->|Hin]; [discriminate|].
    destruct (snd (fst (Process c0 k v s))) as [e1|] eqn:He.
    + cbn [fst In]. intros [[=]|[[= <-]|[]]].
      destruct (Process_supported_failure c0 k v s e1 Hin He) as [[->| ->] _];
        eauto.
    + case_decide; cbn; intuition discriminate.
Qed.

Lemma next_store_errors_witness :
  (exists k, ErrKeyNotFound "zz" = ErrKeyNotFound k) \/
  ErrKeyNotFound "zz" = ErrNoCurrentTransation.
Proof.
  apply (next_store_errors ["remove"; "zz"] stacked_store).
  vm_compute. auto.
Defined.

(** X13.  A turn that prints an error, of the front end or of the store, or
    that exits, leaves the store as it was. *)
Theorem next_failure_keeps_store fields s ev :
  In ev (fst (repl.next fields s)) ->
  (exists e, ev = repl.Stderr_parse e) \/
  (exists e, ev = repl.Stderr_store e) \/
  (exists z, ev = repl.Exit z) ->
  snd (repl.next fields s) = s.
Proof.
  destruct (repl.parse fields) as [[[c0 k] v] [e|]] eqn:Hp.
  - rewrite (next_rejected fields s e) by (rewrite Hp; reflexivity).
    reflexivity.
  - rewrite (next_accepted fields s c0 k v Hp).
    apply parse_ok in Hp. destruct Hp as (n & Hn & _).
    destruct (String.eqb c0 repl.exit) eqn:Ex; [reflexivity|].
    destruct (validCommands_store c0 n Hn) as [->|Hin]; [discriminate|].
    destruct (snd (fst (Process c0 k v s))) as [e|] eqn:He.
    + intros _ _. cbn [snd].
      exact (proj2 (Process_supported_failure c0 k v s e Hin He)).
    + case_decide; cbn [fst In];
        intros Hev [[e ->]|[[e ->]|[z ->]]]; intuition discriminate.
Qed.

Lemma next_failure_keeps_store_witness :
  snd (repl.next ["remove"; "zz"] stacked_store) = stacked_store.
Proof.
  apply (next_failure_keeps_store ["remove"; "zz"] stacked_store
           (repl.Stderr_store (ErrKeyNotFound "zz"))).
  - vm_compute. auto.
  - right; left. eauto.
Defined.

(** X14.  What a turn prints on the standard output: the value of a
    successful read, when it is not empty, and nothing else. *)
Theorem next_prints_reads fields s out :
  In (repl.Stdout out) (fst (repl.next fields s)) <->
  exists k, fields = [Read; k] /\ fst (read k s) = (out, None) /\ out <> "".
Proof.
  split.
  - destruct (repl.parse fields) as [[[c0 k] v] [e|]] eqn:Hp.
    + rewrite (next_rejected fields s e) by (rewrite Hp; reflexivity).
      cbn. intuition discriminate.
    + rewrite (next_accepted fields s c0 k v Hp).
      destruct (String.eqb c0 repl.exit) eqn:Ex; [cbn; intuition discriminate|].
      destruct (Process c0 k v s) as [[o [e|]] s'] eqn:HP; cbn [fst snd];
        [cbn; intuition discriminate|].
      case_decide as Hl; [|cbn; intuition discriminate].
      cbn [In]. intros [[=]|[[= ->]|[]]].
      apply length_pos_nonempty in Hl.
      destruct (Process_value c0 k v s out) as [-> Hr];
        [rewrite HP; reflexivity|exact Hl|].
      exists k. split; [|auto].
      apply parse_ok in Hp. destruct Hp as (n & Hn & Hf).
      apply validCommands_lookup in Hn.
      destruct Hn as [[[=] _]|[[_ ->]|[[[=]|[[=]|[[=]|[=]]]] _]]].
      destruct Hf as [(Hz & _)|[(_ & -> & _)|(Hz & _)]];
        [discriminate|reflexivity|discriminate].
  - intros (k & -> & Hr & Hne).
    assert (Hp : repl.parse [Read; k] = (Read, k, "", None))
      by (apply parse_ok; exists 1%Z; split; [reflexivity|auto]).
    rewrite (next_accepted _ s _ _ _ Hp).
    change (String.eqb Read repl.exit) with false. cbv iota.
    rewrite Process_Read, Hr. cbn [fst snd].
    rewrite decide_True by (apply length_pos_nonempty; exact Hne).
    cbn. auto.
Qed.

(** X15.  A turn ends the process exactly on a line made of the single
    field [exit], with status 0; the store is not called. *)
Theorem next_exits_on_exit fields s z :
  In (repl.Exit z) (fst (repl.next fields s)) <->
  fields = [repl.exit] /\ z = 0%Z.
Proof.
  split.
  - destruct (repl.parse fields) as [[[c0 k] v] [e|]] eqn:Hp.
    + rewrite (next_rejected fields s e) by (rewrite Hp; reflexivity).
      cbn. intuition discriminate.
    + rewrite (next_accepted fields s c0 k v Hp).
      destruct (String.eqb c0 repl.exit) eqn:Ex.
      * apply String.eqb_eq in Ex. subst c0.
        cbn [fst In]. intros [[=]|[[= <-]|[]]]. split; [|reflexivity].
        apply parse_ok in Hp. destruct Hp as (n & Hn & Hf).
        apply validCommands_lookup in Hn.
        destruct Hn as [[[=] _]|[[[[=]|[=]] _]|[_ ->]]].
        destruct Hf as [(_ & -> & _)|[(Hz & _)|(Hz & _)]];
          [reflexivity|discriminate|discriminate].
      * destruct (snd (fst (Process c0 k v s)));
          [|case_decide]; cbn; intuition discriminate.
  - intros [-> ->]. vm_compute. auto.
Qed.

End FrontEnd.

(** * The test suite of the repository, replayed on the embedding *)

Section Tests.

Let ok (v : string) : string * option error := (v, None).
Let not_found (k : string) : string * option error :=
  ("", Some (ErrKeyNotFound k)).

Example test_Example :
  outputs
    [(Write, "a", "hi"); (Read, "a", ""); (Begin, "", ""); (Read, "a", "");
     (Write, "a", "bye"); (Read, "a", ""); (Begin, "", "");
     (Remove, "a", ""); (Read, "a", ""); (Commit, "", ""); (Read, "a", "");
     (Write, "a", "bye now"); (Read, "a", ""); (Discard, "", "");
     (Read, "a", "")]
    NewStore =
  [ok ""; ok "hi"; ok ""; ok "hi"; ok ""; ok "bye"; ok ""; ok "";
   not_found "a"; ok ""; not_found "a"; ok ""; ok "bye now"; ok ""; ok "hi"].
Proof. reflexivity. Qed.

(** The session shown in the README. *)
Example test_README :
  outputs
    [(Read, "k", ""); (Begin, "", ""); (Write, "k", "42"); (Read, "k", "");
     (Commit, "", ""); (Read, "k", ""); (Begin, "", ""); (Remove, "k", "");
     (Read, "k", ""); (Discard, "", ""); (Read, "k", "")]
    NewStore =
  [not_found "k"; ok ""; ok ""; ok "42"; ok ""; ok "42"; ok ""; ok "";
   not_found "k"; ok ""; ok "42"].
Proof. reflexivity. Qed.

Example test_WriteRead :
  outputs
    [(Write, "a", "hi"); (Begin, "", ""); (Write, "a", "hi 2");
     (Read, "a", ""); (Write, "a", "hi 3"); (Read, "a", "");
     (Commit, "", ""); (Read, "a", "")]
    NewStore =
  [ok ""; ok ""; ok ""; ok "hi 2"; ok ""; ok "hi 3"; ok ""; ok "hi 3"].
Proof. reflexivity. Qed.

Example test_Remove :
  outputs
    [(Remove, "a", ""); (Write, "a", "hi"); (Remove, "a", "");
     (Remove, "a", "")]
    NewStore =
  [not_found "a"; ok ""; ok ""; not_found "a"].
Proof. reflexivity. Qed.

Example test_Discard :
  outputs
    [(Write, "a", "hi"); (Begin, "", ""); (Remove, "a", "");
     (Discard, "", ""); (Read, "a", "")]
    NewStore =
  [ok ""; ok ""; ok ""; ok ""; ok "hi"].
Proof. reflexivity. Qed.

Example test_Commit :
  outputs
    [(Write, "a", "hi"); (Begin, "", ""); (Write, "a", "hi 1");
     (Begin, "", ""); (Write, "a", "hi 2"); (Commit, "", "");
     (Commit, "", ""); (Read, "a", "")]
    NewStore =
  [ok ""; ok ""; ok ""; ok ""; ok ""; ok ""; ok ""; ok "hi 2"].
Proof. reflexivity. Qed.

Example test_CommitEmpty :
  outputs
    [(Write, "a", "hi"); (Begin, "", ""); (Begin, "", ""); (Commit, "", "");
     (Commit, "", ""); (Read, "a", "")]
    NewStore =
  [ok ""; ok ""; ok ""; ok ""; ok ""; ok "hi"].
Proof. reflexivity. Qed.

Example test_ErrorCommitWithoutTransaction :
  outputs [(Write, "a", "hi"); (Commit, "", "")] NewStore =
  [ok ""; ("", Some ErrNoCurrentTransation)].
Proof. reflexivity. Qed.

Example test_DiscardNoErrorIfNoTransaction :
  outputs [(Write, "a", "hi"); (Discard, "", "")] NewStore = [ok ""; ok ""].
Proof. reflexivity. Qed.

Example test_ReadErrorNoKey :
  outputs [(Read, "a", "")] NewStore = [not_found "a"].
Proof. reflexivity. Qed.

Example test_ReadErrorAfterRemoveInKv :
  outputs [(Write, "a", "hi"); (Remove, "a", ""); (Read, "a", "")] NewStore =
  [ok ""; ok ""; not_found "a"].
Proof. reflexivity. Qed.

Example test_UnsupportedCommand :
  outputs [("not-a-supported-command", "a", "something")] NewStore =
  [("", Some (ErrUnsupportedCommand "not-a-supported-command"))].
Proof. reflexivity. Qed.

Example test_ReadErrorAfterRemoveInTransaction :
  outputs
    [(Write, "a", "hi"); (Begin, "", ""); (Remove, "a", ""); (Read, "a", "")]
    NewStore =
  [ok ""; ok ""; ok ""; not_found "a"].
Proof. reflexivity. Qed.

(** [TestParseErrors] and [TestParse] of [repl/repl_test.go], on the fields
    of their input lines. *)
Example test_ParseErrors :
  map (fun fields => snd (repl.parse fields))
    [[]; ["unsupported-comand"]; ["write"; "1"; "2"]; ["write"];
     ["write"; "1"; "2"; "3"]; ["read"; "a"]; ["read"; "a"; "b"]; ["read"];
     ["remove"; "a"]; ["remove"]; ["remove"; "a"; "b"]; ["discard"];
     ["discard"; "4"]; ["begin"]; ["begin"; "4"]; ["commit"];
     ["commit"; "4"]; ["exit"]; ["exit"; "4"]] =
  [Some repl.errNoCommand;
   Some (repl.errUnsupportedCommand "unsupported-comand");
   None;
   Some (repl.errInvalidNumArguments "write" 2);
   Some (repl.errInvalidNumArguments "write" 2);
   None;
   Some (repl.errInvalidNumArguments "read" 1);
   Some (repl.errInvalidNumArguments "read" 1);
   None;
   Some (repl.errInvalidNumArguments "remove" 1);
   Some (repl.errInvalidNumArguments "remove" 1);
   None;
   Some (repl.errInvalidNumArguments "discard" 0);
   None;
   Some (repl.errInvalidNumArguments "begin" 0);
   None;
   Some (repl.errInvalidNumArguments "commit" 0);
   None;
   Some (repl.errInvalidNumArguments "exit" 0)].
Proof. reflexivity. Qed.

Example test_Parse :
  repl.parse ["write"; "a"; "hi"] = ("write", "a", "hi", None).
Proof. reflexivity. Qed.

End Tests.
